(** * LockBox API ([app/main.py]): the in-memory store and its four handlers

    The service keeps two module-level Python dictionaries, [GAMES] and
    [PICKS], and exposes [health], [picks_today], [games_today] and the
    secret-gated [ingest_upsert].  This development embeds the handlers as
    functions in a state-and-exception monad over the pair of dictionaries
    and proves the properties the specification states about them. *)

From Stdlib Require Import Floats.PrimFloat Numbers.Cyclic.Int63.PrimInt63 ZArith.
From stdpp Require Import gmap strings list fin_maps.

#[local] Set Warnings "-inexact-float".

(** ** Python dictionaries with string keys

    A [dict] keeps its items in insertion order; assigning to a key that is
    already present replaces the value in place and keeps the position,
    assigning to a new key appends the item. *)
Module PyDict.

Abbreviation dict V := (list (string * V)).

Section ops.
Context {V : Type}.

(** [{}] *)
Definition empty : dict V := [].

(** [d[k] = v] *)
Fixpoint setitem (k : string) (v : V) (d : dict V) : dict V :=
  match d with
  | [] => [(k, v)]
  | (k', v') :: d' =>
      if decide (k' = k) then (k', v) :: d'
      else (k', v') :: setitem k v d'
  end.

(** [d.get(k)] *)
Fixpoint get (d : dict V) (k : string) : option V :=
  match d with
  | [] => None
  | (k', v') :: d' => if decide (k' = k) then Some v' else get d' k
  end.

(** [len(d)] *)
Definition len (d : dict V) : nat := length d.

(** [list(d.keys())] and [list(d.values())] *)
Definition keys (d : dict V) : list string := d.*1.
Definition values (d : dict V) : list V := d.*2.

(** The keys of a dictionary are pairwise distinct. *)
Definition wf (d : dict V) : Prop := NoDup (keys d).

(** The finite map a dictionary denotes. *)
Definition to_map (d : dict V) : gmap string V := list_to_map d.

End ops.

End PyDict.

Import PyDict.

#[local] Open Scope string_scope.

(** ** The pydantic models

    Each model is a record of its declared fields.  Its constructor takes
    keyword arguments: a required field must be given, a field declared
    with a default may be left out ([None] below), and then receives the
    declared default. *)
Module Pick.

Record t := mk {
  id : string;
  league : string;
  game_id : string;
  market : string;
  selection : string;
  posted_line : option float;
  posted_odds : option Z;
  tier : string;
  hit_prob : float;
  play_to : option string;
  rationale : list string
}.

Record kwargs := mk_kwargs {
  kw_id : string;
  kw_league : string;
  kw_game_id : string;
  kw_market : string;
  kw_selection : string;
  kw_posted_line : option (option float);
  kw_posted_odds : option (option Z);
  kw_tier : option string;
  kw_hit_prob : option float;
  kw_play_to : option (option string);
  kw_rationale : option (list string)
}.

(** The binary64 value of the literal [0.55]. *)
Definition default_hit_prob : float := 0x1.199999999999ap-1%float.

Definition init (kw : kwargs) : t :=
  {| id := kw_id kw;
     league := kw_league kw;
     game_id := kw_game_id kw;
     market := kw_market kw;
     selection := kw_selection kw;
     posted_line := default None (kw_posted_line kw);
     posted_odds := default None (kw_posted_odds kw);
     tier := default "A" (kw_tier kw);
     hit_prob := default default_hit_prob (kw_hit_prob kw);
     play_to := default None (kw_play_to kw);
     rationale := default [] (kw_rationale kw) |}.

(** Keyword arguments that give the required fields only. *)
Definition required (id league game_id market selection : string) : kwargs :=
  mk_kwargs id league game_id market selection None None None None None None.

End Pick.

Module Game.

Record t := mk {
  id : string;
  league : string;
  home : string;
  away : string;
  kickoff_at : string;
  market_spread : option string;
  market_total : option float;
  fair_spread : option float;
  fair_total : option float;
  weather : option string;
  notes : list string
}.

Record kwargs := mk_kwargs {
  kw_id : string;
  kw_league : string;
  kw_home : string;
  kw_away : string;
  kw_kickoff_at : string;
  kw_market_spread : option (option string);
  kw_market_total : option (option float);
  kw_fair_spread : option (option float);
  kw_fair_total : option (option float);
  kw_weather : option (option string);
  kw_notes : option (list string)
}.

Definition init (kw : kwargs) : t :=
  {| id := kw_id kw;
     league := kw_league kw;
     home := kw_home kw;
     away := kw_away kw;
     kickoff_at := kw_kickoff_at kw;
     market_spread := default None (kw_market_spread kw);
     market_total := default None (kw_market_total kw);
     fair_spread := default None (kw_fair_spread kw);
     fair_total := default None (kw_fair_total kw);
     weather := default None (kw_weather kw);
     notes := default [] (kw_notes kw) |}.

Definition required (id league home away kickoff_at : string) : kwargs :=
  mk_kwargs id league home away kickoff_at None None None None None None.

End Game.

Module UpsertPayload.

Record t := mk {
  games : list Game.t;
  picks : list Pick.t
}.

Definition init (kw_games : option (list Game.t))
    (kw_picks : option (list Pick.t)) : t :=
  {| games := default [] kw_games; picks := default [] kw_picks |}.

End UpsertPayload.

(** ** Process state, exceptions and the handler monad *)

(** The two module-level dictionaries. *)
Record Store := mkStore {
  GAMES : dict Game.t;
  PICKS : dict Pick.t
}.

(** The state at process start: [GAMES = {}] and [PICKS = {}]. *)
Definition initial : Store := {| GAMES := empty; PICKS := empty |}.

Inductive HTTPException := mkHTTPException (status_code : Z) (detail : string).

Inductive outcome (A : Type) :=
  | Returned (a : A)
  | Raised (e : HTTPException).
Arguments Returned {A} a.
Arguments Raised {A} e.

(** A handler runs on the current store and either returns or raises; in
    both cases it leaves a store behind. *)
Definition Handler (A : Type) : Type := Store → outcome A * Store.

#[global] Instance Handler_ret : MRet Handler :=
  λ A a st, (Returned a, st).

#[global] Instance Handler_bind : MBind Handler :=
  λ A B f m st,
    match m st with
    | (Returned a, st') => f a st'
    | (Raised e, st') => (Raised e, st')
    end.

Definition raise {A : Type} (e : HTTPException) : Handler A :=
  λ st, (Raised e, st).

Definition read_store : Handler Store :=
  λ st, (Returned st, st).

(** [GAMES[k] = g] and [PICKS[k] = p] *)
Definition GAMES_setitem (k : string) (g : Game.t) : Handler unit :=
  λ st, (Returned tt, {| GAMES := setitem k g (GAMES st); PICKS := PICKS st |}).

Definition PICKS_setitem (k : string) (p : Pick.t) : Handler unit :=
  λ st, (Returned tt, {| GAMES := GAMES st; PICKS := setitem k p (PICKS st) |}).

(** [for x in xs: body] *)
Fixpoint for_each {A : Type} (xs : list A) (body : A → Handler unit)
    : Handler unit :=
  match xs with
  | [] => mret tt
  | x :: xs' => body x ;; for_each xs' body
  end.

(** The values the handlers put into their response dictionaries. *)
Inductive json :=
  | JBool (b : bool)
  | JInt (n : Z).

(** ** The application *)
Section app.

(** The process environment, as [os.getenv] sees it. *)
Variable environ : gmap string string.

Definition getenv (key dflt : string) : string :=
  default dflt (environ !! key).

Definition CRON_SECRET : string := getenv "CRON_SECRET" "change-me".

Definition health : Handler (dict json) :=
  st ← read_store;
  mret [("ok", JBool true);
        ("picks", JInt (Z.of_nat (len (PICKS st))));
        ("games", JInt (Z.of_nat (len (GAMES st))))].

Definition picks_today : Handler (list Pick.t) :=
  st ← read_store; mret (values (PICKS st)).

Definition games_today : Handler (list Game.t) :=
  st ← read_store; mret (values (GAMES st)).

Definition ingest_upsert (payload : UpsertPayload.t)
    (x_cron_secret : option string) : Handler (dict json) :=
  if decide (x_cron_secret ≠ Some CRON_SECRET)
  then raise (mkHTTPException 401 "invalid secret")
  else
    for_each (UpsertPayload.games payload)
      (λ g, GAMES_setitem (Game.id g) g);;
    for_each (UpsertPayload.picks payload)
      (λ p, PICKS_setitem (Pick.id p) p);;
    st ← read_store;
    mret [("ok", JBool true);
          ("games", JInt (Z.of_nat (len (GAMES st))));
          ("picks", JInt (Z.of_nat (len (PICKS st))))].

(** The routes of the application. *)
Inductive Request :=
  | GET_health
  | GET_picks_today
  | GET_games_today
  | POST_ingest_upsert (payload : UpsertPayload.t)
      (x_cron_secret : option string).

(** The store a request leaves behind. *)
Definition serve (r : Request) (st : Store) : Store :=
  match r with
  | GET_health => (health st).2
  | GET_picks_today => (picks_today st).2
  | GET_games_today => (games_today st).2
  | POST_ingest_upsert payload x_cron_secret =>
      (ingest_upsert payload x_cron_secret st).2
  end.

(** The store after a run of requests, served one after the other. *)
Definition serve_all (rs : list Request) (st : Store) : Store :=
  foldl (λ st r, serve r st) st rs.

(** An upsert request that presents the configured secret. *)
Definition authorized (payload : UpsertPayload.t) : Request :=
  POST_ingest_upsert payload (Some CRON_SECRET).

End app.

(** ** Notions used to state the properties *)

(** The dictionary after [d[key x] = x] for each [x] of [xs] in turn. *)
Definition write_all {V : Type} (key : V → string) (xs : list V)
    (d : dict V) : dict V :=
  foldl (λ d x, setitem (key x) x d) d xs.

(** The last record of [xs] whose key is [k]. *)
Definition last_with {V : Type} (key : V → string) (k : string)
    (xs : list V) : option V :=
  last (filter (λ x, key x = k) xs).

(** A store is well formed when both dictionaries have distinct keys. *)
Definition Store_wf (st : Store) : Prop :=
  wf (GAMES st) ∧ wf (PICKS st).

(** Every key of a dictionary is the [id] of the record stored under it. *)
Definition keyed_by {V : Type} (key : V → string) (d : dict V) : Prop :=
  ∀ k v, get d k = Some v → key v = k.

(** The store invariant: distinct keys, and every record filed under its
    own id. *)
Definition Store_inv (st : Store) : Prop :=
  Store_wf st ∧ keyed_by Game.id (GAMES st) ∧ keyed_by Pick.id (PICKS st).

(** The store an accepted upsert leaves behind, and the body it returns. *)
Definition upserted (payload : UpsertPayload.t) (st : Store) : Store :=
  {| GAMES := write_all Game.id (UpsertPayload.games payload) (GAMES st);
     PICKS := write_all Pick.id (UpsertPayload.picks payload) (PICKS st) |}.

Definition upsert_body (st : Store) : dict json :=
  [("ok", JBool true);
   ("games", JInt (Z.of_nat (len (GAMES st))));
   ("picks", JInt (Z.of_nat (len (PICKS st))))].

Definition unauthorized : HTTPException :=
  mkHTTPException 401 "invalid secret".

(** All games, and all picks, of a run of payloads, in submission order. *)
Definition submitted_games (hist : list UpsertPayload.t) : list Game.t :=
  concat (UpsertPayload.games <$> hist).

Definition submitted_picks (hist : list UpsertPayload.t) : list Pick.t :=
  concat (UpsertPayload.picks <$> hist).

(** ** Concrete records and stores *)

Definition game_g1 : Game.t :=
  Game.init (Game.required "g1" "NFL" "A" "B" "2024-01-01T00:00:00Z").

Definition pick_p1 (h : float) : Pick.t :=
  Pick.init (Pick.mk_kwargs "p1" "NFL" "g1" "spread" "A -3"
               None None None (Some h) None None).

Definition pick_p2 : Pick.t :=
  Pick.init (Pick.required "p2" "NFL" "g1" "total" "over 41.5").

Definition payload_g1 : UpsertPayload.t := UpsertPayload.init (Some [game_g1]) None.

Definition store_g1_p1 : Store :=
  {| GAMES := [("g1", game_g1)]; PICKS := [("p1", pick_p1 0.6)] |}.

(** Two picks with the same id that differ in their tier. *)
Definition pick_dup_A : Pick.t :=
  Pick.init (Pick.required "p1" "NFL" "g1" "spread" "A -3").

Definition pick_dup_B : Pick.t :=
  Pick.init (Pick.mk_kwargs "p1" "NFL" "g1" "spread" "A -3"
               None None (Some "B") None None None).

Definition payload_dup : UpsertPayload.t :=
  UpsertPayload.init None (Some [pick_dup_A; pick_dup_B]).


(** ** Notions used for histories of requests and for list order *)

(** The payloads of the upsert requests of [rs] that present the configured
    secret, in the order of the requests. *)
Fixpoint accepted_payloads (environ : gmap string string) (rs : list Request)
    : list UpsertPayload.t :=
  match rs with
  | [] => []
  | POST_ingest_upsert payload x_cron_secret :: rs' =>
      if decide (x_cron_secret = Some (CRON_SECRET environ))
      then payload :: accepted_payloads environ rs'
      else accepted_payloads environ rs'
  | _ :: rs' => accepted_payloads environ rs'
  end.

(** The keys of [ks] that are not in [seen], each once, in the order of
    their first occurrence. *)
Fixpoint new_keys (seen ks : list string) : list string :=
  match ks with
  | [] => []
  | k :: ks' =>
      if decide (k ∈ seen) then new_keys seen ks'
      else k :: new_keys (seen ++ [k])%list ks'
  end.

(** Two batches that share no id. *)
Definition game_g2 : Game.t :=
  Game.init (Game.required "g2" "NFL" "C" "D" "2024-01-02T00:00:00Z").

Definition payload_first : UpsertPayload.t :=
  UpsertPayload.mk [game_g1] [pick_p1 0.6].

Definition payload_second : UpsertPayload.t :=
  UpsertPayload.mk [game_g2] [pick_p2].

(** Requests served after an upsert: a read, a rejected upsert and an
    accepted upsert of other ids. *)
Definition requests_later : list Request :=
  [GET_health;
   POST_ingest_upsert payload_dup None;
   authorized ∅ payload_second].



(** ** Facts about dictionaries *)
Section facts.
Context {V : Type}.
Implicit Types (d : dict V) (k : string) (v : V).

Lemma get_setitem k v d k' :
  get (setitem k v d) k' = if decide (k = k') then Some v else get d k'.
Proof.
  induction d as [|[k0 v0] d IH]; simpl.
  - destruct (decide (k = k')); done.
  - destruct (decide (k0 = k)) as [->|Hne]; simpl.
    + destruct (decide (k = k')); done.
    + destruct (decide (k0 = k')) as [->|Hne'].
      * rewrite decide_False; [done|congruence].
      * apply IH.
Qed.

Lemma get_setitem_eq k v d : get (setitem k v d) k = Some v.
Proof. rewrite get_setitem, decide_True; done. Qed.

Lemma get_setitem_ne k v d k' :
  k ≠ k' → get (setitem k v d) k' = get d k'.
Proof. intros. rewrite get_setitem, decide_False; done. Qed.

Lemma to_map_lookup d k : to_map d !! k = get d k.
Proof.
  unfold to_map. induction d as [|[k0 v0] d IH]; simpl; [done|].
  destruct (decide (k0 = k)) as [->|Hne].
  - apply lookup_insert_eq.
  - rewrite lookup_insert_ne; done.
Qed.

Lemma to_map_setitem k v d : to_map (setitem k v d) = <[k:=v]> (to_map d).
Proof.
  apply map_eq; intros k'.
  rewrite lookup_insert, !to_map_lookup, get_setitem.
  destruct (decide (k = k')); done.
Qed.

Lemma get_None d k : get d k = None ↔ k ∉ keys d.
Proof.
  unfold keys. induction d as [|[k0 v0] d IH]; simpl.
  - split; [intros _; apply not_elem_of_nil|done].
  - rewrite not_elem_of_cons. destruct (decide (k0 = k)) as [->|Hne].
    + split; [done|intros [? _]; done].
    + rewrite IH. split; [intros ?; split; [congruence|done]|intros [_ ?]; done].
Qed.

Lemma get_is_Some d k : is_Some (get d k) ↔ k ∈ keys d.
Proof.
  rewrite <-not_eq_None_Some, get_None.
  destruct (decide (k ∈ keys d)); tauto.
Qed.

Lemma get_Some_elem_of d k v : get d k = Some v → (k, v) ∈ d.
Proof.
  induction d as [|[k0 v0] d IH]; simpl; [done|].
  destruct (decide (k0 = k)) as [->|Hne].
  - intros [= ->]. left.
  - intros ?. right. auto.
Qed.

Lemma elem_of_get d k v : wf d → (k, v) ∈ d → get d k = Some v.
Proof.
  unfold wf, keys. induction d as [|[k0 v0] d IH]; simpl.
  - intros _ ?%elem_of_nil. done.
  - rewrite NoDup_cons. intros [Hk0 Hnd] [[= -> ->]|Hin]%elem_of_cons.
    + rewrite decide_True; done.
    + destruct (decide (k0 = k)) as [->|Hne]; [|auto].
      exfalso. apply Hk0. apply list_elem_of_fmap. exists (k, v). done.
Qed.

Lemma keys_setitem_old k v d : k ∈ keys d → keys (setitem k v d) = keys d.
Proof.
  unfold keys. induction d as [|[k0 v0] d IH]; simpl.
  - intros ?%elem_of_nil. done.
  - destruct (decide (k0 = k)) as [->|Hne]; simpl; [done|].
    intros [?|Hin]%elem_of_cons; [congruence|]. f_equal. auto.
Qed.

Lemma keys_setitem_new k v d : k ∉ keys d → keys (setitem k v d) = (keys d ++ [k])%list.
Proof.
  unfold keys. induction d as [|[k0 v0] d IH]; simpl; [done|].
  rewrite not_elem_of_cons. intros [Hne Hin].
  rewrite decide_False by congruence. simpl. f_equal. auto.
Qed.

Lemma elem_of_keys_setitem k v d k' :
  k' ∈ keys (setitem k v d) ↔ k' = k ∨ k' ∈ keys d.
Proof.
  rewrite <-!get_is_Some, get_setitem.
  destruct (decide (k = k')) as [->|Hne].
  - split; [by left|by eauto].
  - split; [by right|]. intros [?|?]; [congruence|done].
Qed.

Lemma wf_empty : wf (@empty V).
Proof. apply NoDup_nil_2. Qed.

Lemma wf_setitem k v d : wf d → wf (setitem k v d).
Proof.
  unfold wf. intros Hnd. destruct (decide (k ∈ keys d)) as [Hin|Hin].
  - rewrite keys_setitem_old; done.
  - rewrite keys_setitem_new by done.
    apply NoDup_app. repeat split; [done| |apply NoDup_singleton].
    intros x Hx ->%list_elem_of_singleton. done.
Qed.

(** A dictionary is determined by its key order and its lookups. *)
Lemma dict_eq d1 d2 :
  wf d1 → keys d1 = keys d2 → (∀ k, get d1 k = get d2 k) → d1 = d2.
Proof.
  unfold wf, keys. revert d2.
  induction d1 as [|[k1 v1] d1 IH]; intros [|[k2 v2] d2]; simpl; try done.
  rewrite NoDup_cons. intros [Hk1 Hnd] [= <- Hks] Hget.
  pose proof (Hget k1) as Hv. rewrite !decide_True in Hv by done.
  injection Hv as <-. f_equal. apply IH; [done..|].
  intros k. specialize (Hget k).
  destruct (decide (k1 = k)) as [<-|Hne]; [|done].
  assert (get d1 k1 = None) as -> by (apply get_None; done).
  symmetry. apply get_None. rewrite Hks in Hk1. exact Hk1.
Qed.

Lemma len_setitem_old k v d : k ∈ keys d → len (setitem k v d) = len d.
Proof.
  intros Hin. unfold len.
  rewrite <-(length_fmap fst (setitem k v d)), <-(length_fmap fst d).
  f_equal. apply keys_setitem_old. done.
Qed.

Lemma len_setitem_new k v d : k ∉ keys d → len (setitem k v d) = S (len d).
Proof.
  intros Hin. unfold len.
  rewrite <-(length_fmap fst (setitem k v d)), <-(length_fmap fst d).
  change (length (keys (setitem k v d)) = S (length (keys d))).
  rewrite keys_setitem_new, length_app by done. simpl. lia.
Qed.

(** [len] counts the keys of the denoted map. *)
Lemma len_size d : wf d → len d = size (to_map d).
Proof. intros Hwf. unfold len, to_map. symmetry. apply map_size_list_to_map. done. Qed.

(** [values] lists the records of the denoted map, each once. *)
Lemma values_map d : wf d → values d ≡ₚ (map_to_list (to_map d)).*2.
Proof.
  intros Hwf. unfold values, to_map.
  rewrite map_to_list_to_map; done.
Qed.

Lemma elem_of_values d v : v ∈ values d ↔ ∃ k, (k, v) ∈ d.
Proof.
  unfold values. rewrite list_elem_of_fmap. split.
  - intros [[k v'] [-> Hin]]. eauto.
  - intros [k Hin]. exists (k, v). done.
Qed.

End facts.

(** ** Facts about writing a batch of records *)
Section write_all_facts.
Context {V : Type} (key : V → string).
Implicit Types (d : dict V) (k : string) (x : V) (xs : list V).

Lemma write_all_nil d : write_all key [] d = d.
Proof. reflexivity. Qed.

Lemma write_all_cons x xs d :
  write_all key (x :: xs) d = write_all key xs (setitem (key x) x d).
Proof. reflexivity. Qed.

Lemma write_all_app xs ys d :
  write_all key (xs ++ ys)%list d = write_all key ys (write_all key xs d).
Proof. unfold write_all. apply foldl_app. Qed.

Lemma write_all_snoc xs x d :
  write_all key (xs ++ [x])%list d = setitem (key x) x (write_all key xs d).
Proof. rewrite write_all_app. reflexivity. Qed.

Lemma last_with_nil k : last_with key k [] = None.
Proof. reflexivity. Qed.

Lemma last_with_snoc k xs x :
  last_with key k (xs ++ [x])%list =
  if decide (key x = k) then Some x else last_with key k xs.
Proof.
  unfold last_with. rewrite filter_app, filter_cons, filter_nil.
  destruct (decide (key x = k)).
  - apply last_snoc.
  - rewrite app_nil_r. reflexivity.
Qed.


Lemma last_with_Some k xs x :
  last_with key k xs = Some x → x ∈ xs ∧ key x = k.
Proof.
  unfold last_with. intros Hl.
  assert (x ∈ filter (λ y, key y = k) xs) as Hin.
  { apply last_Some in Hl as [l' ->]. apply elem_of_app. right. left. }
  apply list_elem_of_filter in Hin. tauto.
Qed.

Lemma last_with_None k xs :
  last_with key k xs = None ↔ k ∉ key <$> xs.
Proof.
  unfold last_with. rewrite last_None. split.
  - intros Hnil [x [-> Hin]]%list_elem_of_fmap.
    assert (x ∈ filter (λ y, key y = key x) xs) as Hx
      by (apply list_elem_of_filter; done).
    rewrite Hnil in Hx. by apply elem_of_nil in Hx.
  - intros Hnotin. apply elem_of_nil_inv. intros x Hx.
    apply list_elem_of_filter in Hx as [<- Hx].
    apply Hnotin, list_elem_of_fmap. eauto.
Qed.

(** Last write wins: after the batch, a key holds the last record of the
    batch filed under it, or what it held before if the batch has none. *)
Lemma get_write_all xs d k :
  get (write_all key xs d) k =
  match last_with key k xs with
  | Some x => Some x
  | None => get d k
  end.
Proof.
  induction xs as [|x xs IH] using rev_ind; [done|].
  rewrite write_all_snoc, last_with_snoc, get_setitem.
  destruct (decide (key x = k)); done.
Qed.

Lemma wf_write_all xs d : wf d → wf (write_all key xs d).
Proof.
  revert d. induction xs as [|x xs IH]; intros d Hwf; [done|].
  rewrite write_all_cons. apply IH, wf_setitem, Hwf.
Qed.

Lemma elem_of_keys_write_all xs d k :
  k ∈ keys (write_all key xs d) ↔ k ∈ key <$> xs ∨ k ∈ keys d.
Proof.
  revert d. induction xs as [|x xs IH]; intros d.
  - rewrite write_all_nil, fmap_nil, elem_of_nil. tauto.
  - rewrite write_all_cons, IH, elem_of_keys_setitem, fmap_cons, elem_of_cons.
    tauto.
Qed.

Lemma keys_write_all_old xs d :
  (∀ x, x ∈ xs → key x ∈ keys d) → keys (write_all key xs d) = keys d.
Proof.
  revert d. induction xs as [|x xs IH]; intros d Hin; [done|].
  assert (keys (setitem (key x) x d) = keys d) as Hk.
  { apply keys_setitem_old, Hin. left. }
  rewrite write_all_cons, IH, Hk; [done|].
  intros y Hy. rewrite Hk. apply Hin. by right.
Qed.

Lemma keyed_by_empty : keyed_by key empty.
Proof. intros k v. discriminate. Qed.

Lemma keyed_by_write_all xs d :
  keyed_by key d → keyed_by key (write_all key xs d).
Proof.
  intros Hd k v. rewrite get_write_all.
  destruct (last_with key k xs) as [x|] eqn:Hl.
  - intros [= <-]. apply last_with_Some in Hl. tauto.
  - apply Hd.
Qed.

(** Writing the same batch a second time changes nothing. *)
Lemma write_all_idem xs d :
  wf d → write_all key xs (write_all key xs d) = write_all key xs d.
Proof.
  intros Hwf. apply dict_eq.
  - by do 2 apply wf_write_all.
  - apply keys_write_all_old. intros x Hx.
    apply elem_of_keys_write_all. left. by apply list_elem_of_fmap_2.
  - intros k. rewrite !get_write_all.
    destruct (last_with key k xs); done.
Qed.

Lemma len_write_all_ge xs d : (len d ≤ len (write_all key xs d))%nat.
Proof.
  revert d. induction xs as [|x xs IH]; intros d; [done|].
  rewrite write_all_cons. etrans; [|apply IH].
  destruct (decide (key x ∈ keys d)).
  - rewrite len_setitem_old; done.
  - rewrite len_setitem_new by done. lia.
Qed.

End write_all_facts.

(** ** Further facts about dictionaries and batches *)
Section more_write_all_facts.
Context {V : Type} (key : V → string).
Implicit Types (d : dict V) (k : string) (x : V) (xs : list V).

Lemma len_setitem_le k x d : (len (setitem k x d) ≤ S (len d))%nat.
Proof.
  destruct (decide (k ∈ keys d)).
  - rewrite len_setitem_old by done. lia.
  - rewrite len_setitem_new by done. lia.
Qed.

Lemma len_write_all_le xs d :
  (len (write_all key xs d) ≤ len d + length xs)%nat.
Proof.
  revert d. induction xs as [|x xs IH]; intros d.
  - rewrite write_all_nil. simpl. lia.
  - rewrite write_all_cons. etrans; [apply IH|].
    pose proof (len_setitem_le (key x) x d). simpl. lia.
Qed.

Lemma dom_to_map d k : k ∈ dom (to_map d) ↔ k ∈ keys d.
Proof. rewrite elem_of_dom, to_map_lookup. apply get_is_Some. Qed.

Lemma dom_to_map_write_all xs d :
  dom (to_map (write_all key xs d)) =
  (list_to_set (key <$> xs) : gset string) ∪ dom (to_map d).
Proof.
  apply set_eq. intros k.
  rewrite elem_of_union, elem_of_list_to_set, !dom_to_map.
  apply elem_of_keys_write_all.
Qed.

(** A batch makes a dictionary grow by the number of distinct keys of the
    batch that the dictionary does not hold yet. *)
Lemma len_write_all xs d :
  wf d →
  len (write_all key xs d) =
  (len d + size ((list_to_set (key <$> xs) : gset string) ∖ dom (to_map d)))%nat.
Proof.
  intros Hwf.
  rewrite (len_size (write_all key xs d)) by (by apply wf_write_all).
  rewrite (len_size d) by done.
  rewrite <-!size_dom, dom_to_map_write_all.
  rewrite <-(difference_union_L (list_to_set (key <$> xs))).
  rewrite size_union by (apply disjoint_difference_l1; done).
  lia.
Qed.

(** The order of the keys after a batch: the old keys stay where they are,
    the new ones follow in the order in which the batch first names them. *)
Lemma keys_write_all xs d :
  keys (write_all key xs d) = (keys d ++ new_keys (keys d) (key <$> xs))%list.
Proof.
  revert d. induction xs as [|x xs IH]; intros d.
  - rewrite write_all_nil. simpl. by rewrite app_nil_r.
  - rewrite write_all_cons, IH, fmap_cons. simpl.
    destruct (decide (key x ∈ keys d)) as [Hin|Hin].
    + rewrite keys_setitem_old; done.
    + rewrite keys_setitem_new by done. by rewrite <-app_assoc.
Qed.

(** As a finite map, a batch is a run of insertions. *)
Lemma to_map_write_all xs d :
  to_map (write_all key xs d) =
  foldl (λ m x, <[key x := x]> m) (to_map d) xs.
Proof.
  revert d. induction xs as [|x xs IH]; intros d; [done|].
  rewrite write_all_cons, IH, to_map_setitem. reflexivity.
Qed.

Lemma values_get_ext (d1 d2 : dict V) :
  wf d1 → wf d2 → (∀ k, get d1 k = get d2 k) → values d1 ≡ₚ values d2.
Proof.
  intros Hwf1 Hwf2 Hget.
  rewrite (values_map d1), (values_map d2) by done.
  replace (to_map d2) with (to_map d1); [done|].
  apply map_eq. intros k. by rewrite !to_map_lookup.
Qed.

End more_write_all_facts.

(** ** Running the handlers *)

Lemma Handler_bind_run {A B : Type} (m : Handler A) (f : A → Handler B) st a st' :
  m st = (Returned a, st') → (m ≫= f) st = f a st'.
Proof. intros Hm. unfold mbind, Handler_bind. rewrite Hm. reflexivity. Qed.

Lemma for_each_GAMES_run gs st :
  for_each gs (λ g, GAMES_setitem (Game.id g) g) st =
  (Returned tt, {| GAMES := write_all Game.id gs (GAMES st); PICKS := PICKS st |}).
Proof.
  revert st. induction gs as [|g gs IH]; intros st.
  - destruct st. reflexivity.
  - simpl. erewrite Handler_bind_run by reflexivity. rewrite IH. reflexivity.
Qed.

Lemma for_each_PICKS_run ps st :
  for_each ps (λ p, PICKS_setitem (Pick.id p) p) st =
  (Returned tt, {| GAMES := GAMES st; PICKS := write_all Pick.id ps (PICKS st) |}).
Proof.
  revert st. induction ps as [|p ps IH]; intros st.
  - destruct st. reflexivity.
  - simpl. erewrite Handler_bind_run by reflexivity. rewrite IH. reflexivity.
Qed.

Section handler_facts.
Variable environ : gmap string string.

Lemma ingest_upsert_accepts payload st :
  ingest_upsert environ payload (Some (CRON_SECRET environ)) st =
  (Returned (upsert_body (upserted payload st)), upserted payload st).
Proof.
  unfold ingest_upsert. rewrite decide_False by (intros H; by apply H).
  erewrite Handler_bind_run by apply for_each_GAMES_run.
  erewrite Handler_bind_run by apply for_each_PICKS_run.
  reflexivity.
Qed.

Lemma ingest_upsert_rejects payload x_cron_secret st :
  x_cron_secret ≠ Some (CRON_SECRET environ) →
  ingest_upsert environ payload x_cron_secret st = (Raised unauthorized, st).
Proof. intros Hne. unfold ingest_upsert. rewrite decide_True by done. reflexivity. Qed.

Lemma serve_authorized payload st :
  serve environ (authorized environ payload) st = upserted payload st.
Proof. simpl. rewrite ingest_upsert_accepts. reflexivity. Qed.

Lemma serve_cases r st :
  serve environ r st = st ∨ ∃ payload, serve environ r st = upserted payload st.
Proof.
  destruct r as [| | |payload x]; simpl; [by left..|].
  destruct (decide (x = Some (CRON_SECRET environ))) as [->|Hne].
  - right. exists payload. rewrite ingest_upsert_accepts. reflexivity.
  - left. rewrite ingest_upsert_rejects by done. reflexivity.
Qed.

Lemma serve_all_snoc rs r st :
  serve_all environ (rs ++ [r])%list st = serve environ r (serve_all environ rs st).
Proof. unfold serve_all. rewrite foldl_app. reflexivity. Qed.

End handler_facts.

(** ** Runs of requests *)

Lemma serve_all_cons environ r rs st :
  serve_all environ (r :: rs) st = serve_all environ rs (serve environ r st).
Proof. reflexivity. Qed.

Lemma serve_all_app environ rs1 rs2 st :
  serve_all environ (rs1 ++ rs2)%list st =
  serve_all environ rs2 (serve_all environ rs1 st).
Proof. unfold serve_all. apply foldl_app. Qed.

Lemma serve_all_authorized environ hist st :
  serve_all environ (authorized environ <$> hist) st =
  {| GAMES := write_all Game.id (submitted_games hist) (GAMES st);
     PICKS := write_all Pick.id (submitted_picks hist) (PICKS st) |}.
Proof.
  revert st. induction hist as [|payload hist IH]; intros st.
  - destruct st. reflexivity.
  - rewrite fmap_cons, serve_all_cons, serve_authorized, IH.
    unfold submitted_games, submitted_picks, upserted.
    rewrite !fmap_cons. simpl. rewrite !write_all_app. reflexivity.
Qed.

Lemma get_empty {V : Type} (k : string) : get (@empty V) k = None.
Proof. reflexivity. Qed.

Lemma submitted_games_app hist1 hist2 :
  submitted_games (hist1 ++ hist2) =
  (submitted_games hist1 ++ submitted_games hist2)%list.
Proof. unfold submitted_games. by rewrite fmap_app, concat_app. Qed.

Lemma submitted_picks_app hist1 hist2 :
  submitted_picks (hist1 ++ hist2) =
  (submitted_picks hist1 ++ submitted_picks hist2)%list.
Proof. unfold submitted_picks. by rewrite fmap_app, concat_app. Qed.

Lemma serve_all_accepted environ rs st :
  serve_all environ rs st =
  serve_all environ (authorized environ <$> accepted_payloads environ rs) st.
Proof.
  revert st. induction rs as [|r rs IH]; intros st; [done|].
  rewrite serve_all_cons.
  destruct r as [| | |payload x]; simpl accepted_payloads; try apply IH.
  destruct (decide (x = Some (CRON_SECRET environ))) as [->|Hne].
  - rewrite fmap_cons, serve_all_cons. apply IH.
  - simpl serve. rewrite ingest_upsert_rejects by done. apply IH.
Qed.

(** ** The store invariant is kept *)

Lemma Store_inv_initial : Store_inv initial.
Proof.
  repeat split; try apply wf_empty; apply keyed_by_empty.
Qed.

Lemma Store_inv_upserted payload st : Store_inv st → Store_inv (upserted payload st).
Proof.
  intros [[Hg Hp] [Hkg Hkp]]. repeat split; simpl.
  - by apply wf_write_all.
  - by apply wf_write_all.
  - by apply keyed_by_write_all.
  - by apply keyed_by_write_all.
Qed.

Lemma Store_inv_serve environ r st : Store_inv st → Store_inv (serve environ r st).
Proof.
  intros Hinv. destruct (serve_cases environ r st) as [->|[payload ->]]; [done|].
  by apply Store_inv_upserted.
Qed.

Lemma Store_inv_serve_all environ rs st :
  Store_inv st → Store_inv (serve_all environ rs st).
Proof.
  revert st. induction rs as [|r rs IH]; intros st Hinv; [done|].
  apply IH, Store_inv_serve, Hinv.
Qed.

(** In a well-formed dictionary keyed by [key], the keys of the stored
    records are the dictionary's keys, in order. *)
Lemma keyed_by_values {V : Type} (key : V → string) (d : dict V) :
  wf d → keyed_by key d → key <$> values d = keys d.
Proof.
  intros Hwf Hkey. unfold values, keys. rewrite <-list_fmap_compose.
  apply list_fmap_ext. intros i [k v] Hi. simpl.
  apply Hkey, elem_of_get; [done|]. by eapply list_elem_of_lookup_2.
Qed.

Lemma keyed_unique {V : Type} (key : V → string) (d : dict V) (x y : V) :
  wf d → keyed_by key d → x ∈ values d → y ∈ values d → key x = key y → x = y.
Proof.
  intros Hwf Hkey [kx Hx]%elem_of_values [ky Hy]%elem_of_values Hxy.
  apply elem_of_get in Hx; [|done]. apply elem_of_get in Hy; [|done].
  pose proof (Hkey _ _ Hx) as Hkx. pose proof (Hkey _ _ Hy) as Hky.
  assert (kx = ky) as -> by congruence. congruence.
Qed.

Lemma get_Some_values {V : Type} (d : dict V) (k : string) (v : V) :
  get d k = Some v → v ∈ values d.
Proof. intros Hget. apply elem_of_values. exists k. by apply get_Some_elem_of. Qed.


(** ** The upsert handler *)

(** C1: an upsert that presents the configured secret writes every game of
    the payload under its id, then every pick under its id, in input order.
    After the call each dictionary denotes the map obtained by inserting the
    records of the batch one after the other, an insertion replacing the
    record its id held: each id holds the last record the batch files under
    it, and an id the batch does not mention keeps its record.  A key that
    was present keeps its place and is not entered a second time; the keys
    new to a dictionary follow in the order in which the batch first names
    them.  The call returns [ok = True] with the lengths of the two
    dictionaries after the batch; on a store with distinct keys the
    dictionaries still have distinct keys afterwards and these lengths are
    the numbers of ids the two mappings then hold. *)
Theorem ingest_upsert_authorized environ payload st :
  ∃ st',
    ingest_upsert environ payload (Some (CRON_SECRET environ)) st =
      (Returned [("ok", JBool true);
                 ("games", JInt (Z.of_nat (len (GAMES st'))));
                 ("picks", JInt (Z.of_nat (len (PICKS st'))))], st') ∧
    (∀ k, get (GAMES st') k =
          match last_with Game.id k (UpsertPayload.games payload) with
          | Some g => Some g
          | None => get (GAMES st) k
          end) ∧
    (∀ k, get (PICKS st') k =
          match last_with Pick.id k (UpsertPayload.picks payload) with
          | Some p => Some p
          | None => get (PICKS st) k
          end) ∧
    to_map (GAMES st') =
      foldl (λ m g, <[Game.id g := g]> m) (to_map (GAMES st))
        (UpsertPayload.games payload) ∧
    to_map (PICKS st') =
      foldl (λ m p, <[Pick.id p := p]> m) (to_map (PICKS st))
        (UpsertPayload.picks payload) ∧
    keys (GAMES st') =
      (keys (GAMES st) ++
       new_keys (keys (GAMES st)) (Game.id <$> UpsertPayload.games payload))%list ∧
    keys (PICKS st') =
      (keys (PICKS st) ++
       new_keys (keys (PICKS st)) (Pick.id <$> UpsertPayload.picks payload))%list ∧
    (Store_wf st →
     Store_wf st' ∧
     len (GAMES st') = size (to_map (GAMES st')) ∧
     len (PICKS st') = size (to_map (PICKS st'))).
Proof.
  exists (upserted payload st). split; [apply ingest_upsert_accepts|].
  unfold upserted. cbn [GAMES PICKS].
  split; [intros k; apply get_write_all|].
  split; [intros k; apply get_write_all|].
  split; [apply to_map_write_all|]. split; [apply to_map_write_all|].
  split; [apply keys_write_all|]. split; [apply keys_write_all|].
  intros [Hg Hp].
  assert (wf (write_all Game.id (UpsertPayload.games payload) (GAMES st)))
    as Hg' by (by apply wf_write_all).
  assert (wf (write_all Pick.id (UpsertPayload.picks payload) (PICKS st)))
    as Hp' by (by apply wf_write_all).
  split; [split; assumption|]. split; by apply len_size.
Qed.

Lemma ingest_upsert_authorized_witness :
  Store_wf store_g1_p1 ∧
  ∃ st',
    ingest_upsert ∅ payload_dup (Some (CRON_SECRET ∅)) store_g1_p1 =
      (Returned [("ok", JBool true);
                 ("games", JInt (Z.of_nat (len (GAMES st'))));
                 ("picks", JInt (Z.of_nat (len (PICKS st'))))], st') ∧
    Store_wf st' ∧
    len (GAMES st') = size (to_map (GAMES st')) ∧
    len (PICKS st') = size (to_map (PICKS st')).
Proof.
  assert (Store_wf store_g1_p1) as Hwf.
  { split; apply NoDup_singleton. }
  split; [exact Hwf|].
  destruct (ingest_upsert_authorized ∅ payload_dup store_g1_p1)
    as (st' & Hrun & _ & _ & _ & _ & _ & _ & Hsizes).
  exists st'. split; [exact Hrun|]. exact (Hsizes Hwf).
Defined.

(** C2: the configured secret is the value of [CRON_SECRET] in the
    environment, or ["change-me"] when it is unset; an upsert whose header is
    missing or differs from it raises [HTTPException(401)] and leaves both
    dictionaries as they were, so the two list endpoints answer as before. *)
Theorem ingest_upsert_unauthorized environ payload x_cron_secret st :
  x_cron_secret ≠ Some (CRON_SECRET environ) →
  CRON_SECRET environ = default "change-me" (environ !! "CRON_SECRET") ∧
  ∃ st',
    ingest_upsert environ payload x_cron_secret st =
      (Raised (mkHTTPException 401 "invalid secret"), st') ∧
    GAMES st' = GAMES st ∧ PICKS st' = PICKS st ∧
    picks_today st' = picks_today st ∧ games_today st' = games_today st.
Proof.
  intros Hne. split; [reflexivity|]. exists st.
  split; [by apply ingest_upsert_rejects|done].
Qed.

Lemma ingest_upsert_unauthorized_witness :
  None ≠ Some (CRON_SECRET ∅) ∧
  CRON_SECRET ∅ = default "change-me" ((∅ : gmap string string) !! "CRON_SECRET") ∧
  ∃ st',
    ingest_upsert ∅ payload_g1 None initial =
      (Raised (mkHTTPException 401 "invalid secret"), st') ∧
    GAMES st' = GAMES initial ∧ PICKS st' = PICKS initial ∧
    picks_today st' = picks_today initial ∧
    games_today st' = games_today initial.
Proof.
  split; [discriminate|].
  apply (ingest_upsert_unauthorized ∅ payload_g1 None initial). discriminate.
Defined.

(** C10: an upsert that presents the configured secret and carries no game
    and no pick leaves both dictionaries as they are and returns
    [ok = True] with their current lengths; on a store with distinct keys,
    and so in every reachable state, the counts it returns are the numbers
    of ids the two mappings hold. *)
Theorem ingest_upsert_empty environ rs st :
  ingest_upsert environ (UpsertPayload.mk [] []) (Some (CRON_SECRET environ)) st =
    (Returned [("ok", JBool true);
               ("games", JInt (Z.of_nat (len (GAMES st))));
               ("picks", JInt (Z.of_nat (len (PICKS st))))], st) ∧
  UpsertPayload.init None None = UpsertPayload.mk [] [] ∧
  (Store_wf st →
   ingest_upsert environ (UpsertPayload.mk [] []) (Some (CRON_SECRET environ)) st =
     (Returned [("ok", JBool true);
                ("games", JInt (Z.of_nat (size (to_map (GAMES st)))));
                ("picks", JInt (Z.of_nat (size (to_map (PICKS st)))))], st)) ∧
  (let s := serve_all environ rs initial in
   ingest_upsert environ (UpsertPayload.mk [] []) (Some (CRON_SECRET environ)) s =
     (Returned [("ok", JBool true);
                ("games", JInt (Z.of_nat (size (to_map (GAMES s)))));
                ("picks", JInt (Z.of_nat (size (to_map (PICKS s)))))], s)).
Proof.
  assert (∀ s, Store_wf s →
            ingest_upsert environ (UpsertPayload.mk [] [])
              (Some (CRON_SECRET environ)) s =
            (Returned [("ok", JBool true);
                       ("games", JInt (Z.of_nat (size (to_map (GAMES s)))));
                       ("picks", JInt (Z.of_nat (size (to_map (PICKS s)))))], s))
    as Hsized.
  { intros s [Hg Hp]. rewrite ingest_upsert_accepts.
    unfold upsert_body, upserted.
    cbn [GAMES PICKS UpsertPayload.games UpsertPayload.picks].
    rewrite !write_all_nil, (len_size (GAMES s)), (len_size (PICKS s)) by done.
    destruct s. reflexivity. }
  split; [|split; [reflexivity|split]].
  - rewrite ingest_upsert_accepts. destruct st. reflexivity.
  - apply Hsized.
  - cbv zeta. apply Hsized.
    apply (Store_inv_serve_all environ rs initial Store_inv_initial).
Qed.

Lemma ingest_upsert_empty_witness :
  Store_wf store_g1_p1 ∧
  ingest_upsert ∅ (UpsertPayload.mk [] []) (Some (CRON_SECRET ∅)) store_g1_p1 =
    (Returned [("ok", JBool true);
               ("games", JInt (Z.of_nat (size (to_map (GAMES store_g1_p1)))));
               ("picks", JInt (Z.of_nat (size (to_map (PICKS store_g1_p1)))))],
     store_g1_p1).
Proof.
  assert (Store_wf store_g1_p1) as Hwf.
  { split; apply NoDup_singleton. }
  split; [exact Hwf|].
  destruct (ingest_upsert_empty ∅ [] store_g1_p1) as (_ & _ & Hsized & _).
  exact (Hsized Hwf).
Defined.

(** ** The read handlers *)

(** C5: the health check takes no argument and returns, on every store,
    [ok = True] with the current lengths of the two dictionaries, leaving
    the store as it is; at process start it reports zero picks and zero
    games; in every reachable state these lengths are the numbers of ids
    the two mappings hold. *)
Theorem health_reports_sizes environ rs st :
  health st =
    (Returned [("ok", JBool true);
               ("picks", JInt (Z.of_nat (len (PICKS st))));
               ("games", JInt (Z.of_nat (len (GAMES st))))], st) ∧
  health initial =
    (Returned [("ok", JBool true); ("picks", JInt 0); ("games", JInt 0)],
     initial) ∧
  (let s := serve_all environ rs initial in
   len (PICKS s) = size (to_map (PICKS s)) ∧
   len (GAMES s) = size (to_map (GAMES s))).
Proof.
  split; [reflexivity|]. split; [reflexivity|]. cbv zeta.
  destruct (Store_inv_serve_all environ rs initial Store_inv_initial)
    as [[Hg Hp] _].
  split; by apply len_size.
Qed.

(** C9: the two list handlers leave the store exactly as they found it:
    both dictionaries, with every key and record, are the same after the
    call as before. *)
Theorem list_handlers_read_only environ st :
  (picks_today st).2 = st ∧ (games_today st).2 = st ∧
  serve environ GET_picks_today st = st ∧
  serve environ GET_games_today st = st.
Proof. repeat split. Qed.

(** ** Histories of accepted upserts *)

(** C3: after any run of accepted upserts from the initial state, each
    dictionary holds under every id exactly the last record submitted with
    that id in the whole run, and nothing under an id never submitted; a
    further upsert of one record puts that very record under its id, whatever
    was there before; submitting a payload twice in a row leaves the same
    state as submitting it once. *)
Theorem upserts_last_write_wins environ hist payload :
  let st := serve_all environ (authorized environ <$> hist) initial in
  (∀ k, get (GAMES st) k = last_with Game.id k (submitted_games hist)) ∧
  (∀ k, get (PICKS st) k = last_with Pick.id k (submitted_picks hist)) ∧
  (∀ g, get (GAMES (serve environ (authorized environ (UpsertPayload.mk [g] [])) st))
          (Game.id g) = Some g) ∧
  (∀ p, get (PICKS (serve environ (authorized environ (UpsertPayload.mk [] [p])) st))
          (Pick.id p) = Some p) ∧
  serve_all environ (authorized environ <$> (hist ++ [payload; payload])%list) initial =
  serve_all environ (authorized environ <$> (hist ++ [payload])%list) initial.
Proof.
  cbv zeta. rewrite serve_all_authorized. cbn [GAMES PICKS initial].
  split; [|split; [|split; [|split]]].
  - intros k. rewrite get_write_all, get_empty.
    destruct (last_with _ _ _); done.
  - intros k. rewrite get_write_all, get_empty.
    destruct (last_with _ _ _); done.
  - intros g. rewrite serve_authorized. apply get_setitem_eq.
  - intros p. rewrite serve_authorized. apply get_setitem_eq.
  - rewrite !fmap_app, !serve_all_app.
    set (st := serve_all environ (authorized environ <$> hist) initial).
    assert (Store_inv st) as [[Hg Hp] _]
      by apply Store_inv_serve_all, Store_inv_initial.
    rewrite !fmap_cons, fmap_nil, !serve_all_cons, !serve_authorized.
    unfold upserted. simpl.
    rewrite !write_all_idem by done. reflexivity.
Qed.

(** The overwrite scenario: [p1] with [hit_prob = 0.60], then [p1] again with
    [hit_prob = 0.70]; the list holds the second record only. *)
Example overwrite_scenario :
  picks_today
    (serve_all ∅
       [authorized ∅ (UpsertPayload.init None (Some [pick_p1 0.6]));
        authorized ∅ (UpsertPayload.init None (Some [pick_p1 0.7]))]
       initial) =
  (Returned [pick_p1 0.7], {| GAMES := []; PICKS := [("p1", pick_p1 0.7)] |}).
Proof. vm_compute. reflexivity. Qed.

(** ** The list handlers and the invariant *)

(** C6: on every store, [picks_today] returns the records of the picks
    dictionary and [games_today] those of the games dictionary, each stored
    record once, and neither raises; at process start both return the empty
    list. *)
Theorem list_handlers_return_all st :
  Store_wf st →
  (∃ ps, picks_today st = (Returned ps, st) ∧
         ps ≡ₚ (map_to_list (to_map (PICKS st))).*2 ∧
         length ps = size (to_map (PICKS st))) ∧
  (∃ gs, games_today st = (Returned gs, st) ∧
         gs ≡ₚ (map_to_list (to_map (GAMES st))).*2 ∧
         length gs = size (to_map (GAMES st))) ∧
  picks_today initial = (Returned [], initial) ∧
  games_today initial = (Returned [], initial).
Proof.
  intros [Hg Hp]. split; [|split; [|done]].
  - exists (values (PICKS st)). split; [done|]. split.
    + by apply values_map.
    + rewrite <-len_size by done. apply length_fmap.
  - exists (values (GAMES st)). split; [done|]. split.
    + by apply values_map.
    + rewrite <-len_size by done. apply length_fmap.
Qed.

Lemma list_handlers_return_all_witness :
  Store_wf store_g1_p1 ∧
  (∃ ps, picks_today store_g1_p1 = (Returned ps, store_g1_p1) ∧
         ps ≡ₚ (map_to_list (to_map (PICKS store_g1_p1))).*2 ∧
         length ps = size (to_map (PICKS store_g1_p1))) ∧
  (∃ gs, games_today store_g1_p1 = (Returned gs, store_g1_p1) ∧
         gs ≡ₚ (map_to_list (to_map (GAMES store_g1_p1))).*2 ∧
         length gs = size (to_map (GAMES store_g1_p1))) ∧
  picks_today initial = (Returned [], initial) ∧
  games_today initial = (Returned [], initial).
Proof.
  assert (Store_wf store_g1_p1) as Hwf.
  { split; apply NoDup_singleton. }
  split; [exact Hwf|].
  apply (list_handlers_return_all store_g1_p1 Hwf).
Defined.

(** C7: in every state reachable from the initial one by serving requests,
    each dictionary has pairwise distinct keys and files every record under
    the record's own id, so the list handlers never return two records with
    the same id. *)
Theorem id_unique_invariant environ rs :
  let st := serve_all environ rs initial in
  wf (GAMES st) ∧ wf (PICKS st) ∧
  keyed_by Game.id (GAMES st) ∧ keyed_by Pick.id (PICKS st) ∧
  (∃ ps, picks_today st = (Returned ps, st) ∧ NoDup (Pick.id <$> ps)) ∧
  (∃ gs, games_today st = (Returned gs, st) ∧ NoDup (Game.id <$> gs)).
Proof.
  simpl. set (st := serve_all environ rs initial).
  assert (Store_inv st) as [[Hg Hp] [Hkg Hkp]]
    by apply Store_inv_serve_all, Store_inv_initial.
  repeat split; try done.
  - exists (values (PICKS st)). split; [done|].
    rewrite keyed_by_values; done.
  - exists (values (GAMES st)). split; [done|].
    rewrite keyed_by_values; done.
Qed.

(** ** Round trip *)

(** C4, as stated, fails in two ways.  In a batch that carries two picks
    with one id, the first pick is submitted by an accepted upsert, yet the
    list handler then returns only the second, whose [tier] is not the one
    the first was submitted with.  And a pick that is alone in its batch is
    no longer returned once a later accepted upsert has submitted another
    pick with its id. *)
Lemma roundtrip_superseded :
  (pick_dup_A ∈ UpsertPayload.picks payload_dup ∧
   ∃ ps,
     (picks_today (serve ∅ (authorized ∅ payload_dup) initial)).1 = Returned ps ∧
     ps = [pick_dup_B] ∧
     (pick_dup_A ∉ ps) ∧
     Pick.id pick_dup_B = Pick.id pick_dup_A ∧
     Pick.tier pick_dup_A = "A" ∧ Pick.tier pick_dup_B = "B") ∧
  (last_with Pick.id (Pick.id (pick_p1 0.6)) [pick_p1 0.6] = Some (pick_p1 0.6) ∧
   ∃ ps,
     (picks_today
        (serve_all ∅
           [authorized ∅ (UpsertPayload.mk [] [pick_p1 0.6]);
            authorized ∅ (UpsertPayload.mk [] [pick_p1 0.7])]
           initial)).1 = Returned ps ∧
     ps = [pick_p1 0.7] ∧
     (pick_p1 0.6 ∉ ps)).
Proof.
  split.
  - split; [left|]. exists [pick_dup_B].
    split; [vm_compute; reflexivity|]. split; [reflexivity|].
    split; [|done].
    intros Hin. apply list_elem_of_singleton in Hin. discriminate Hin.
  - split; [reflexivity|]. exists [pick_p1 0.7].
    split; [vm_compute; reflexivity|]. split; [reflexivity|].
    intros Hin. apply list_elem_of_singleton in Hin.
    apply (f_equal (λ p, PrimFloat.eqb (Pick.hit_prob p) 0.6)) in Hin.
    vm_compute in Hin. discriminate Hin.
Qed.

(** C4, amended: take any run of requests, then an accepted upsert, then any
    further run of requests.  A record that is the last entry of the
    upsert's batch with its id, and whose id no accepted upsert of the
    further run submits, is then returned by the corresponding list handler
    exactly as it was submitted, and is the only record returned with that
    id.  A record is constructed with every field it is given, and with the
    declared default for each optional field that is left out, whatever the
    other fields are (Pick: [tier = "A"], [hit_prob = 0.55], [posted_line],
    [posted_odds] and [play_to] [None], [rationale = []]; Game:
    [market_spread], [market_total], [fair_spread], [fair_total] and
    [weather] [None], [notes = []]). *)
Theorem roundtrip environ rs payload rs' :
  let st' :=
    serve environ (authorized environ payload) (serve_all environ rs initial) in
  let st'' := serve_all environ rs' st' in
  let later := accepted_payloads environ rs' in
  (∀ p, last_with Pick.id (Pick.id p) (UpsertPayload.picks payload) = Some p →
        Pick.id p ∉ Pick.id <$> submitted_picks later →
        ∃ ps, picks_today st'' = (Returned ps, st'') ∧ p ∈ ps ∧
              ∀ r, r ∈ ps → Pick.id r = Pick.id p → r = p) ∧
  (∀ g, last_with Game.id (Game.id g) (UpsertPayload.games payload) = Some g →
        Game.id g ∉ Game.id <$> submitted_games later →
        ∃ gs, games_today st'' = (Returned gs, st'') ∧ g ∈ gs ∧
              ∀ r, r ∈ gs → Game.id r = Game.id g → r = g) ∧
  (∀ kw,
     Pick.init kw =
     Pick.mk (Pick.kw_id kw) (Pick.kw_league kw) (Pick.kw_game_id kw)
       (Pick.kw_market kw) (Pick.kw_selection kw)
       (default None (Pick.kw_posted_line kw))
       (default None (Pick.kw_posted_odds kw))
       (default "A" (Pick.kw_tier kw))
       (default 0.55%float (Pick.kw_hit_prob kw))
       (default None (Pick.kw_play_to kw))
       (default [] (Pick.kw_rationale kw))) ∧
  (∀ kw,
     Game.init kw =
     Game.mk (Game.kw_id kw) (Game.kw_league kw) (Game.kw_home kw)
       (Game.kw_away kw) (Game.kw_kickoff_at kw)
       (default None (Game.kw_market_spread kw))
       (default None (Game.kw_market_total kw))
       (default None (Game.kw_fair_spread kw))
       (default None (Game.kw_fair_total kw))
       (default None (Game.kw_weather kw))
       (default [] (Game.kw_notes kw))) ∧
  (∀ i l g m s,
     Pick.init (Pick.required i l g m s) =
     Pick.mk i l g m s None None "A" 0.55 None []) ∧
  (∀ i l h a k,
     Game.init (Game.required i l h a k) =
     Game.mk i l h a k None None None None None []).
Proof.
  cbv zeta.
  set (st := serve_all environ rs initial).
  set (later := accepted_payloads environ rs').
  set (st'' := serve_all environ rs' (serve environ (authorized environ payload) st)).
  assert (Store_inv st'') as [[Hg Hp] [Hkg Hkp]].
  { apply Store_inv_serve_all, Store_inv_serve, Store_inv_serve_all,
      Store_inv_initial. }
  assert (st'' =
          {| GAMES := write_all Game.id (submitted_games later)
                        (GAMES (upserted payload st));
             PICKS := write_all Pick.id (submitted_picks later)
                        (PICKS (upserted payload st)) |}) as Hst''.
  { unfold st''. rewrite serve_all_accepted, serve_all_authorized,
      serve_authorized. reflexivity. }
  split; [|split; [|split; [|split; [|split]]]]; try reflexivity.
  - intros p Hlast Hlater.
    assert (get (PICKS st'') (Pick.id p) = Some p) as Hget.
    { rewrite Hst''. cbn [PICKS upserted].
      rewrite get_write_all, (proj2 (last_with_None Pick.id _ _) Hlater).
      rewrite get_write_all, Hlast. reflexivity. }
    exists (values (PICKS st'')).
    assert (p ∈ values (PICKS st'')) as Hin by (by eapply get_Some_values).
    split; [done|]. split; [done|].
    intros r Hr Hid. by apply (keyed_unique Pick.id (PICKS st'')).
  - intros g Hlast Hlater.
    assert (get (GAMES st'') (Game.id g) = Some g) as Hget.
    { rewrite Hst''. cbn [GAMES upserted].
      rewrite get_write_all, (proj2 (last_with_None Game.id _ _) Hlater).
      rewrite get_write_all, Hlast. reflexivity. }
    exists (values (GAMES st'')).
    assert (g ∈ values (GAMES st'')) as Hin by (by eapply get_Some_values).
    split; [done|]. split; [done|].
    intros r Hr Hid. by apply (keyed_unique Game.id (GAMES st'')).
Qed.

Lemma roundtrip_witness :
  last_with Pick.id (Pick.id (pick_p1 0.6)) (UpsertPayload.picks payload_first)
    = Some (pick_p1 0.6) ∧
  (Pick.id (pick_p1 0.6) ∉
     Pick.id <$> submitted_picks (accepted_payloads ∅ requests_later)) ∧
  ∃ ps,
    picks_today
      (serve_all ∅ requests_later
         (serve ∅ (authorized ∅ payload_first) (serve_all ∅ [] initial))) =
      (Returned ps,
       serve_all ∅ requests_later
         (serve ∅ (authorized ∅ payload_first) (serve_all ∅ [] initial))) ∧
    pick_p1 0.6 ∈ ps ∧
    ∀ r, r ∈ ps → Pick.id r = Pick.id (pick_p1 0.6) → r = pick_p1 0.6.
Proof.
  assert (last_with Pick.id (Pick.id (pick_p1 0.6))
            (UpsertPayload.picks payload_first) = Some (pick_p1 0.6))
    as Hlast by reflexivity.
  assert (Pick.id (pick_p1 0.6) ∉
            Pick.id <$> submitted_picks (accepted_payloads ∅ requests_later))
    as Hlater.
  { intros Hin. vm_compute in Hin.
    apply list_elem_of_singleton in Hin. discriminate Hin. }
  split; [exact Hlast|]. split; [exact Hlater|].
  destruct (roundtrip ∅ [] payload_first requests_later) as (Hpicks & _).
  exact (Hpicks (pick_p1 0.6) Hlast Hlater).
Defined.

(** ** No validation of [hit_prob] or [posted_odds] *)




(** ** The scenarios of the specification, evaluated *)

Example scenario_unauthorized :
  ingest_upsert ∅ payload_g1 (Some "wrong") initial =
    (Raised (mkHTTPException 401 "invalid secret"), initial) ∧
  games_today initial = (Returned [], initial).
Proof. split; vm_compute; reflexivity. Qed.

Example scenario_upsert_then_read :
  ingest_upsert ∅ payload_g1 (Some "change-me") initial =
    (Returned [("ok", JBool true); ("games", JInt 1); ("picks", JInt 0)],
     {| GAMES := [("g1", game_g1)]; PICKS := [] |}) ∧
  games_today {| GAMES := [("g1", game_g1)]; PICKS := [] |} =
    (Returned [Game.mk "g1" "NFL" "A" "B" "2024-01-01T00:00:00Z"
                 None None None None None []],
     {| GAMES := [("g1", game_g1)]; PICKS := [] |}).
Proof. split; vm_compute; reflexivity. Qed.

Example scenario_configured_secret :
  CRON_SECRET {["CRON_SECRET" := "s3cret"]} = "s3cret" ∧
  ingest_upsert {["CRON_SECRET" := "s3cret"]} payload_g1 (Some "change-me") initial =
    (Raised (mkHTTPException 401 "invalid secret"), initial).
Proof. split; vm_compute; reflexivity. Qed.

(** ** Further properties of the handlers *)

(** X1: [ingest_upsert] returns normally exactly when the header carries the
    configured secret; whatever it raises is [HTTPException(401, "invalid
    secret")], and then the store is the one it was called on. *)
Theorem ingest_upsert_gate environ payload x_cron_secret st :
  ((∃ body st',
      ingest_upsert environ payload x_cron_secret st = (Returned body, st')) ↔
   x_cron_secret = Some (CRON_SECRET environ)) ∧
  (∀ e st',
      ingest_upsert environ payload x_cron_secret st = (Raised e, st') →
      e = mkHTTPException 401 "invalid secret" ∧ st' = st).
Proof.
  destruct (decide (x_cron_secret = Some (CRON_SECRET environ))) as [->|Hne].
  - rewrite ingest_upsert_accepts. split.
    + split; [done|]. intros _. eauto.
    + intros e st' [=].
  - rewrite ingest_upsert_rejects by done. split.
    + split; [intros (body & st' & [=])|done].
    + intros e st' [= <- <-]. done.
Qed.

(** X2: no request removes anything: over any run of requests, an id a
    dictionary holds stays held, and neither dictionary gets shorter. *)
Theorem serve_all_never_deletes environ rs st :
  let st' := serve_all environ rs st in
  (∀ k, k ∈ keys (GAMES st) → k ∈ keys (GAMES st')) ∧
  (∀ k, k ∈ keys (PICKS st) → k ∈ keys (PICKS st')) ∧
  (len (GAMES st) ≤ len (GAMES st'))%nat ∧
  (len (PICKS st) ≤ len (PICKS st'))%nat.
Proof.
  cbv zeta. revert st. induction rs as [|r rs IH]; intros st; [done|].
  rewrite serve_all_cons.
  destruct (IH (serve environ r st)) as (IHg & IHp & IHlg & IHlp).
  destruct (serve_cases environ r st) as [Hs|[payload Hs]]; rewrite Hs in *.
  - done.
  - repeat split.
    + intros k Hk. apply IHg. simpl. apply elem_of_keys_write_all. by right.
    + intros k Hk. apply IHp. simpl. apply elem_of_keys_write_all. by right.
    + etrans; [|apply IHlg]. apply len_write_all_ge.
    + etrans; [|apply IHlp]. apply len_write_all_ge.
Qed.

(** X3: on a store with distinct keys, the counts an accepted upsert returns
    are the previous counts plus the number of distinct ids of the batch that
    were not stored before. *)
Theorem ingest_upsert_count_growth environ payload st :
  Store_wf st →
  ∃ st',
    ingest_upsert environ payload (Some (CRON_SECRET environ)) st =
      (Returned
         [("ok", JBool true);
          ("games",
           JInt (Z.of_nat
                   (len (GAMES st) +
                    size ((list_to_set (Game.id <$> UpsertPayload.games payload)
                           : gset string) ∖ dom (to_map (GAMES st))))));
          ("picks",
           JInt (Z.of_nat
                   (len (PICKS st) +
                    size ((list_to_set (Pick.id <$> UpsertPayload.picks payload)
                           : gset string) ∖ dom (to_map (PICKS st))))))],
       st').
Proof.
  intros [Hg Hp]. exists (upserted payload st).
  rewrite ingest_upsert_accepts. unfold upsert_body, upserted.
  cbn [GAMES PICKS]. rewrite !len_write_all by done. reflexivity.
Qed.

Lemma ingest_upsert_count_growth_witness :
  Store_wf store_g1_p1 ∧
  ∃ st',
    ingest_upsert ∅ payload_dup (Some (CRON_SECRET ∅)) store_g1_p1 =
      (Returned
         [("ok", JBool true);
          ("games",
           JInt (Z.of_nat
                   (len (GAMES store_g1_p1) +
                    size ((list_to_set (Game.id <$> UpsertPayload.games payload_dup)
                           : gset string) ∖ dom (to_map (GAMES store_g1_p1))))));
          ("picks",
           JInt (Z.of_nat
                   (len (PICKS store_g1_p1) +
                    size ((list_to_set (Pick.id <$> UpsertPayload.picks payload_dup)
                           : gset string) ∖ dom (to_map (PICKS store_g1_p1))))))],
       st').
Proof.
  assert (Store_wf store_g1_p1) as Hwf.
  { split; apply NoDup_singleton. }
  split; [exact Hwf|].
  apply (ingest_upsert_count_growth ∅ payload_dup store_g1_p1 Hwf).
Defined.

(** X4: an accepted upsert makes neither dictionary shorter, and makes each
    longer by at most the number of records the batch carries for it. *)
Theorem ingest_upsert_count_bounds environ payload st :
  let st' := (ingest_upsert environ payload (Some (CRON_SECRET environ)) st).2 in
  (len (GAMES st) ≤ len (GAMES st'))%nat ∧
  (len (GAMES st') ≤ len (GAMES st) + length (UpsertPayload.games payload))%nat ∧
  (len (PICKS st) ≤ len (PICKS st'))%nat ∧
  (len (PICKS st') ≤ len (PICKS st) + length (UpsertPayload.picks payload))%nat.
Proof.
  cbv zeta. rewrite ingest_upsert_accepts. cbn [snd upserted GAMES PICKS].
  repeat split;
    first [apply len_write_all_ge | apply len_write_all_le].
Qed.

(** X5: the games and the picks of a payload are applied independently:
    an upsert of both is the upsert of the games alone followed by that of
    the picks alone, in either order; games alone leave the picks
    dictionary untouched and picks alone the games dictionary, whatever
    [game_id] the picks carry. *)
Theorem ingest_upsert_games_picks_independent environ gs ps st :
  let both := authorized environ (UpsertPayload.mk gs ps) in
  let games_only := authorized environ (UpsertPayload.mk gs []) in
  let picks_only := authorized environ (UpsertPayload.mk [] ps) in
  serve environ both st = serve environ picks_only (serve environ games_only st) ∧
  serve environ both st = serve environ games_only (serve environ picks_only st) ∧
  PICKS (serve environ games_only st) = PICKS st ∧
  GAMES (serve environ picks_only st) = GAMES st.
Proof.
  cbv zeta. rewrite !serve_authorized. unfold upserted.
  cbn [GAMES PICKS UpsertPayload.games UpsertPayload.picks].
  rewrite !write_all_nil. done.
Qed.

(** X6: two accepted upserts in a row leave the store that one accepted
    upsert of the concatenated games and concatenated picks leaves. *)
Theorem ingest_upsert_batches_concatenate environ payload1 payload2 st :
  serve environ (authorized environ payload2)
    (serve environ (authorized environ payload1) st) =
  serve environ
    (authorized environ
       (UpsertPayload.mk
          (UpsertPayload.games payload1 ++ UpsertPayload.games payload2)
          (UpsertPayload.picks payload1 ++ UpsertPayload.picks payload2)))
    st.
Proof.
  rewrite !serve_authorized. unfold upserted.
  cbn [GAMES PICKS UpsertPayload.games UpsertPayload.picks].
  rewrite !write_all_app. reflexivity.
Qed.

Lemma get_write_all_comm {V : Type} (key : V → string) (xs ys : list V)
    (d : dict V) (k : string) :
  (∀ x y, x ∈ xs → y ∈ ys → key x ≠ key y) →
  get (write_all key ys (write_all key xs d)) k =
  get (write_all key xs (write_all key ys d)) k.
Proof.
  intros Hdisj. rewrite !get_write_all.
  destruct (last_with key k ys) as [y|] eqn:Hy;
    destruct (last_with key k xs) as [x|] eqn:Hx; try done.
  apply last_with_Some in Hx as [Hx Hkx]. apply last_with_Some in Hy as [Hy Hky].
  exfalso. apply (Hdisj x y Hx Hy). congruence.
Qed.

(** X7: two accepted upserts whose batches share no game id and no pick id
    can be served in either order: every id ends up with the same record,
    and on a store with distinct keys the list handlers return the same
    records, up to order. *)
Theorem ingest_upsert_disjoint_commute environ payload1 payload2 st :
  (∀ g1 g2, g1 ∈ UpsertPayload.games payload1 →
            g2 ∈ UpsertPayload.games payload2 → Game.id g1 ≠ Game.id g2) →
  (∀ p1 p2, p1 ∈ UpsertPayload.picks payload1 →
            p2 ∈ UpsertPayload.picks payload2 → Pick.id p1 ≠ Pick.id p2) →
  Store_wf st →
  let st12 := serve environ (authorized environ payload2)
                (serve environ (authorized environ payload1) st) in
  let st21 := serve environ (authorized environ payload1)
                (serve environ (authorized environ payload2) st) in
  (∀ k, get (GAMES st12) k = get (GAMES st21) k) ∧
  (∀ k, get (PICKS st12) k = get (PICKS st21) k) ∧
  (∃ gs12 gs21, (games_today st12).1 = Returned gs12 ∧
                (games_today st21).1 = Returned gs21 ∧ gs12 ≡ₚ gs21) ∧
  (∃ ps12 ps21, (picks_today st12).1 = Returned ps12 ∧
                (picks_today st21).1 = Returned ps21 ∧ ps12 ≡ₚ ps21).
Proof.
  intros Hgs Hps [Hg Hp]. cbv zeta. rewrite !serve_authorized.
  unfold upserted. cbn [GAMES PICKS].
  assert (∀ k, get (write_all Game.id (UpsertPayload.games payload2)
                      (write_all Game.id (UpsertPayload.games payload1) (GAMES st))) k =
               get (write_all Game.id (UpsertPayload.games payload1)
                      (write_all Game.id (UpsertPayload.games payload2) (GAMES st))) k)
    as Hgget by (intros k; by apply get_write_all_comm).
  assert (∀ k, get (write_all Pick.id (UpsertPayload.picks payload2)
                      (write_all Pick.id (UpsertPayload.picks payload1) (PICKS st))) k =
               get (write_all Pick.id (UpsertPayload.picks payload1)
                      (write_all Pick.id (UpsertPayload.picks payload2) (PICKS st))) k)
    as Hpget by (intros k; by apply get_write_all_comm).
  split; [exact Hgget|]. split; [exact Hpget|]. split.
  - eexists _, _. split; [reflexivity|]. split; [reflexivity|].
    cbn [GAMES]. apply values_get_ext; [by do 2 apply wf_write_all..|exact Hgget].
  - eexists _, _. split; [reflexivity|]. split; [reflexivity|].
    cbn [PICKS]. apply values_get_ext; [by do 2 apply wf_write_all..|exact Hpget].
Qed.

Lemma ingest_upsert_disjoint_commute_witness :
  (∀ g1 g2, g1 ∈ UpsertPayload.games payload_first →
            g2 ∈ UpsertPayload.games payload_second → Game.id g1 ≠ Game.id g2) ∧
  (∀ p1 p2, p1 ∈ UpsertPayload.picks payload_first →
            p2 ∈ UpsertPayload.picks payload_second → Pick.id p1 ≠ Pick.id p2) ∧
  Store_wf store_g1_p1 ∧
  (∀ k, get (GAMES (serve ∅ (authorized ∅ payload_second)
                      (serve ∅ (authorized ∅ payload_first) store_g1_p1))) k =
        get (GAMES (serve ∅ (authorized ∅ payload_first)
                      (serve ∅ (authorized ∅ payload_second) store_g1_p1))) k) ∧
  (∀ k, get (PICKS (serve ∅ (authorized ∅ payload_second)
                      (serve ∅ (authorized ∅ payload_first) store_g1_p1))) k =
        get (PICKS (serve ∅ (authorized ∅ payload_first)
                      (serve ∅ (authorized ∅ payload_second) store_g1_p1))) k).
Proof.
  assert (∀ g1 g2, g1 ∈ UpsertPayload.games payload_first →
                   g2 ∈ UpsertPayload.games payload_second →
                   Game.id g1 ≠ Game.id g2) as Hgs.
  { intros g1 g2 ->%list_elem_of_singleton ->%list_elem_of_singleton.
    discriminate. }
  assert (∀ p1 p2, p1 ∈ UpsertPayload.picks payload_first →
                   p2 ∈ UpsertPayload.picks payload_second →
                   Pick.id p1 ≠ Pick.id p2) as Hps.
  { intros p1 p2 ->%list_elem_of_singleton ->%list_elem_of_singleton.
    discriminate. }
  assert (Store_wf store_g1_p1) as Hwf.
  { split; apply NoDup_singleton. }
  split; [exact Hgs|]. split; [exact Hps|]. split; [exact Hwf|].
  destruct (ingest_upsert_disjoint_commute ∅ payload_first payload_second
              store_g1_p1 Hgs Hps Hwf) as (Hg & Hp & _).
  split; [exact Hg|exact Hp].
Defined.

(** X8: the store after a run of requests depends only on the accepted
    upserts among them: leaving out every read and every rejected upsert
    gives the same store, and from the initial state each id holds the last
    record an accepted upsert submitted for it. *)
Theorem serve_all_only_accepted_matter environ rs st :
  serve_all environ rs st =
    serve_all environ (authorized environ <$> accepted_payloads environ rs) st ∧
  (∀ k, get (GAMES (serve_all environ rs initial)) k =
        last_with Game.id k (submitted_games (accepted_payloads environ rs))) ∧
  (∀ k, get (PICKS (serve_all environ rs initial)) k =
        last_with Pick.id k (submitted_picks (accepted_payloads environ rs))).
Proof.
  split; [apply serve_all_accepted|].
  rewrite (serve_all_accepted environ rs initial), serve_all_authorized.
  cbn [GAMES PICKS initial].
  split; intros k; rewrite get_write_all, get_empty;
    destruct (last_with _ _ _); done.
Qed.

(** X9: replaying a whole run of accepted upserts right after it, in any
    reachable state, changes nothing. *)
Theorem upserts_replay_idempotent environ rs hist :
  let st := serve_all environ rs initial in
  serve_all environ (authorized environ <$> (hist ++ hist)%list) st =
  serve_all environ (authorized environ <$> hist) st.
Proof.
  cbv zeta. set (st := serve_all environ rs initial).
  assert (Store_inv st) as [[Hg Hp] _]
    by apply Store_inv_serve_all, Store_inv_initial.
  rewrite !serve_all_authorized, submitted_games_app, submitted_picks_app.
  rewrite !write_all_app, !write_all_idem by done. reflexivity.
Qed.

(** X10: the order of the list handlers: in a reachable state, after an
    accepted upsert the ids [picks_today] returns are the ids it returned
    before, in the same order (an overwritten pick keeps its place),
    followed by the ids new to the store in the order in which the batch
    first names them; likewise for [games_today]. *)
Theorem list_order_after_upsert environ rs payload :
  let st := serve_all environ rs initial in
  let st' := serve environ (authorized environ payload) st in
  (∃ ps ps', (picks_today st).1 = Returned ps ∧
             (picks_today st').1 = Returned ps' ∧
             Pick.id <$> ps' =
             ((Pick.id <$> ps) ++
              new_keys (Pick.id <$> ps)
                (Pick.id <$> UpsertPayload.picks payload))%list) ∧
  (∃ gs gs', (games_today st).1 = Returned gs ∧
             (games_today st').1 = Returned gs' ∧
             Game.id <$> gs' =
             ((Game.id <$> gs) ++
              new_keys (Game.id <$> gs)
                (Game.id <$> UpsertPayload.games payload))%list).
Proof.
  cbv zeta. set (st := serve_all environ rs initial).
  assert (Store_inv st) as Hinv
    by apply Store_inv_serve_all, Store_inv_initial.
  pose proof (Store_inv_upserted payload st Hinv) as [[Hg' Hp'] [Hkg' Hkp']].
  destruct Hinv as [[Hg Hp] [Hkg Hkp]].
  rewrite serve_authorized. split.
  - exists (values (PICKS st)), (values (PICKS (upserted payload st))).
    split; [done|]. split; [done|].
    rewrite !keyed_by_values by done. apply keys_write_all.
  - exists (values (GAMES st)), (values (GAMES (upserted payload st))).
    split; [done|]. split; [done|].
    rewrite !keyed_by_values by done. apply keys_write_all.
Qed.

(** X11: after any run of requests from the initial state, the ids a
    dictionary holds are exactly the ids of the records submitted by the
    accepted upserts of the run, and the counts the health check reports
    are the numbers of distinct such ids. *)
Theorem reachable_ids_are_submitted_ids environ rs :
  let st := serve_all environ rs initial in
  let hist := accepted_payloads environ rs in
  (∀ k, k ∈ keys (GAMES st) ↔ k ∈ Game.id <$> submitted_games hist) ∧
  (∀ k, k ∈ keys (PICKS st) ↔ k ∈ Pick.id <$> submitted_picks hist) ∧
  health st =
    (Returned
       [("ok", JBool true);
        ("picks",
         JInt (Z.of_nat (size (list_to_set (Pick.id <$> submitted_picks hist)
                               : gset string))));
        ("games",
         JInt (Z.of_nat (size (list_to_set (Game.id <$> submitted_games hist)
                               : gset string))))], st).
Proof.
  cbv zeta. rewrite (serve_all_accepted environ rs initial), serve_all_authorized.
  set (hist := accepted_payloads environ rs).
  split; [|split].
  - intros k. cbn [GAMES initial]. rewrite elem_of_keys_write_all.
    split; [intros [?|?%elem_of_nil]; done|by left].
  - intros k. cbn [PICKS initial]. rewrite elem_of_keys_write_all.
    split; [intros [?|?%elem_of_nil]; done|by left].
  - unfold health. erewrite Handler_bind_run by reflexivity.
    cbn [GAMES PICKS initial].
    rewrite !len_write_all by apply wf_empty.
    unfold len, empty. cbn [length].
    replace (dom (to_map (@nil (string * Pick.t)))) with (∅ : gset string)
      by (symmetry; apply dom_empty_L).
    replace (dom (to_map (@nil (string * Game.t)))) with (∅ : gset string)
      by (symmetry; apply dom_empty_L).
    rewrite !difference_empty_L. reflexivity.
Qed.

(** X12: the health check that follows an accepted upsert reports the counts
    the upsert returned. *)
Theorem health_agrees_with_upsert environ payload st :
  ∃ body st' report,
    ingest_upsert environ payload (Some (CRON_SECRET environ)) st =
      (Returned body, st') ∧
    health st' = (Returned report, st') ∧
    get report "games" = get body "games" ∧
    get report "picks" = get body "picks" ∧
    get report "ok" = get body "ok".
Proof.
  eexists _, _, _. split; [apply ingest_upsert_accepts|].
  split; [reflexivity|]. done.
Qed.
